(** * Binomial real-options lattices (trees.py)

    A shallow embedding of the three numeric stages of [trees.py]:
    [base_instr] (price lattice), [internal_value_of_options] (exercise
    payoffs) and [delay_option_value] (risk-neutral backward induction).

    Python lists are lists, a lattice is a list of slices, list indexing
    is [!!] (an [IndexError] is [None]) and item assignment is [<[_:=_]>]
    guarded by a range test.  The loops thread the mutated lattice as
    explicit state through an [option] monad.

    The numbers of the program are [np.float64] values.  The program only
    uses them through [+ - * /], unary minus, [np.exp], [<] and [>], so
    the embedding is written once over an interface [Arith] that offers
    exactly these operations.  Properties of the shape and of the control
    flow are proved for every implementation of the interface; properties
    that need the laws of arithmetic are proved at the instance of the
    real numbers, which idealises floating point (no rounding, no
    overflow).  The instance [float_arith] is binary64 itself; it shows
    where rounding, overflow and NaN make the program leave the real
    numbers. *)

From Stdlib Require Import Reals Lra ZArith.
From Stdlib Require Floats.
From stdpp Require Import base option list strings.
Import (notations) PrimFloat.

(** ** The arithmetic the program uses *)

Class Arith (F : Type) := {
  f0 : F;                       (* the literal 0 *)
  f1 : F;                       (* the literal 1 *)
  fadd : F → F → F;
  fsub : F → F → F;
  fmul : F → F → F;
  fdiv : F → F → F;             (* np.float64 division: never raises *)
  fneg : F → F;
  fexp : F → F;                 (* np.exp *)
  fltb : F → F → bool;          (* x < y *)
}.

(** [x > y] is [y < x]. *)
Definition fgtb `{Arith F} (x y : F) : bool := fltb y x.

(** The real numbers as an arithmetic. *)
#[export] Instance R_arith : Arith R := {|
  f0 := 0%R;
  f1 := 1%R;
  fadd := Rplus;
  fsub := Rminus;
  fmul := Rmult;
  fdiv := Rdiv;
  fneg := Ropp;
  fexp := exp;
  fltb := λ x y, if Rlt_dec x y then true else false;
|}.

(** *** Binary64 *)

(** [np.exp] is a function of numpy.  Its values at the arguments used
    in this file, as numpy returns them: [exp 0.3], [exp (-0.3)],
    [exp 0.6], [exp (-0.6)], [exp (-0.06)], [exp 1000] (overflow),
    [exp (-1000)] (underflow) and [exp 0]. *)
Definition np_exp_table : list (PrimFloat.float * PrimFloat.float) :=
  [ (0x1.3333333333333p-2, 0x1.599058c8c1a96p+0)%float;
    (-0x1.3333333333333p-2, 0x1.7b4c869c37c05p-1)%float;
    (0x1.3333333333333p-1, 0x1.d27660b11a9efp+0)%float;
    (-0x1.3333333333333p-1, 0x1.18fdd6b9604e3p-1)%float;
    (-0x1.eb851eb851eb8p-5, 0x1.e22ef6008dd87p-1)%float;
    (1000, PrimFloat.infinity)%float;
    (-1000, 0)%float;
    (0, 1)%float ].

Fixpoint table_lookup (table : list (PrimFloat.float * PrimFloat.float))
    (x : PrimFloat.float) : PrimFloat.float :=
  match table with
  | [] => PrimFloat.nan
  | (a, b) :: table' =>
      if PrimFloat.eqb x a then b else table_lookup table' x
  end.

(** [np.exp] on the tabulated arguments; no statement below evaluates
    it anywhere else. *)
Definition np_exp (x : PrimFloat.float) : PrimFloat.float :=
  table_lookup np_exp_table x.

(** The arithmetic of the program as it runs: IEEE 754 binary64, where a
    division by zero yields an infinity or NaN and a comparison with NaN
    is false. *)
#[export] Instance float_arith : Arith PrimFloat.float := {|
  f0 := 0%float;
  f1 := 1%float;
  fadd := PrimFloat.add;
  fsub := PrimFloat.sub;
  fmul := PrimFloat.mul;
  fdiv := PrimFloat.div;
  fneg := PrimFloat.opp;
  fexp := np_exp;
  fltb := PrimFloat.ltb;
|}.


(** ** Python loops and lists *)

(** [range(n)] for a Python integer [n]: empty when [n <= 0]. *)
Definition range (n : Z) : list nat := seq 0 (Z.to_nat n).

(** [range(start, -1, -1)]: [start, start-1, ..., 0], empty when
    [start < 0]. *)
Definition range_down (start : Z) : list nat :=
  reverse (seq 0 (Z.to_nat (start + 1))).

(** [for x in xs: st = body x st], stopping at the first exception. *)
Fixpoint for_each {A S : Type} (xs : list A) (body : A → S → option S)
    (st : S) : option S :=
  match xs with
  | [] => Some st
  | x :: xs' => st' ← body x st; for_each xs' body st'
  end.

(** A lattice: slice [i] is the list at index [i]. *)
Abbreviation lattice F := (list (list F)) (only parsing).

Section lattice.
Context {F : Type} `{Arith F}.

(** [L[i][j]]; [None] is an [IndexError]. *)
Definition node (L : lattice F) (i j : nat) : option F :=
  row ← L !! i; row !! j.

(** [L[i][j] = v]: the slice object at index [i] is updated in place. *)
Definition set_node (L : lattice F) (i j : nat) (v : F) : option (lattice F) :=
  row ← L !! i;
  if decide (j < length row) then Some (<[i := <[j := v]> row]> L)
  else None.

(** The body of the inner loop of [base_instr]:
    [if len(tmp) == 0: tmp += [s * u]] and then [tmp += [s * d]]. *)
Definition emit (u d : F) (tmp : list F) (s : F) : list F :=
  (if decide (length tmp = 0) then tmp ++ [fmul s u] else tmp)
    ++ [fmul s d].

(** [tmp = []; for s in prev: ...]. *)
Definition next_slice (u d : F) (prev : list F) : list F :=
  foldl (emit u d) [] prev.

(** One round of the outer loop: [base_price[-1]] is read, the new
    slice is appended. *)
Definition grow (u d : F) (base_price : lattice F) : option (lattice F) :=
  prev ← last base_price;
  Some (base_price ++ [next_slice u d prev]).

(** The construction shared by [base_instr] and the first half of
    [internal_value_of_options]. *)
Definition build (periods : Z) (base_price : F) (u d : F) : option (lattice F) :=
  for_each (range periods) (λ _ L, grow u d L) [[base_price]].

Definition base_instr (periods : Z) (base_price volatility : F)
    : option (lattice F) :=
  let u := fexp volatility in
  let d := fexp (fneg volatility) in
  build periods base_price u d.

(** The value written at a node by [internal_value_of_options]:
    [0] if [s - investment < 0], else [s - investment]. *)
Definition payoff (investment s : F) : F :=
  if fltb (fsub s investment) f0 then f0 else fsub s investment.

(** One round of [for s in base_price[i]]: [pos] is the index the list
    iterator has reached and [s] the element it yields there. *)
Definition payoff_node (investment : F) (i pos : nat) (L : lattice F)
    : option (lattice F) :=
  s ← node L i pos;
  if fltb (fsub s investment) f0 then set_node L i pos f0
  else set_node L i pos (fsub s investment).

(** [pos = -1; for s in base_price[i]: pos += 1; ...].  Item assignment
    keeps the length of the slice, so the iterator makes one round per
    index of the slice as it was when the loop began. *)
Definition payoff_slice (investment : F) (i : nat) (L : lattice F)
    : option (lattice F) :=
  row ← L !! i;
  for_each (seq 0 (length row)) (payoff_node investment i) L.

Definition internal_value_of_options (periods : Z)
    (base_price investment volatility : F) : option (lattice F) :=
  let u := fexp volatility in
  let d := fexp (fneg volatility) in
  L ← build periods base_price u d;
  for_each (range (periods + 1)) (payoff_slice investment) L.

(** [(q * war_opc[i+1][pos] + (1 - q) * war_opc[i+1][pos+1]) * exp(-rf)],
    with [disc] standing for [np.exp(-rf)]. *)
Definition continuation (q disc a b : F) : F :=
  fmul (fadd (fmul q a) (fmul (fsub f1 q) b)) disc.

(** The value kept at a node: the continuation if it is greater than
    the intrinsic value, else the intrinsic value. *)
Definition keep (p v : F) : F := if fgtb p v then p else v.

(** One round of [for s in war_opc[i]]. *)
Definition delay_node (q rf : F) (tmp : lattice F) (i pos : nat)
    (war_opc : lattice F) : option (lattice F) :=
  a ← node war_opc (i + 1) pos;
  b ← node war_opc (i + 1) (pos + 1);
  let position_intern_val := continuation q (fexp (fneg rf)) a b in
  v ← node tmp i pos;
  if fgtb position_intern_val v
  then set_node war_opc i pos position_intern_val
  else set_node war_opc i pos v.

Definition delay_slice (q rf : F) (tmp : lattice F) (i : nat)
    (war_opc : lattice F) : option (lattice F) :=
  row ← war_opc !! i;
  for_each (seq 0 (length row)) (delay_node q rf tmp i) war_opc.

(** The risk-neutral probability, computed without any test on
    [u - d]. *)
Definition risk_neutral_q (rf decline volatility : F) : F :=
  let u := fexp volatility in
  let d := fexp (fneg volatility) in
  fdiv (fsub (fexp (fsub rf decline)) d) (fsub u d).

(** [war_opc = copy.deepcopy(tmp)]: lists are values here, so the copy
    is [tmp] itself and later updates of [war_opc] leave [tmp] alone. *)
Definition delay_option_value (periods : Z)
    (base_price rf investment decline volatility : F) : option (lattice F) :=
  let q := risk_neutral_q rf decline volatility in
  tmp ← internal_value_of_options periods base_price investment volatility;
  let war_opc := tmp in
  for_each (range_down (periods - 1)) (delay_slice q rf tmp) war_opc.

(** *** Closed forms of the three stages *)

(** Slice [i] of the price lattice. *)
Definition slice_at (u d base_price : F) (i : nat) : list F :=
  Nat.iter i (next_slice u d) [base_price].

(** The price lattice with slices [0..n]. *)
Definition slices (u d base_price : F) (n : nat) : lattice F :=
  slice_at u d base_price <$> seq 0 (S n).

(** [payoff] applied to every node of a lattice. *)
Definition payoffs (investment : F) (L : lattice F) : lattice F :=
  (λ row : list F, payoff investment <$> row) <$> L.

(** A slice of the induction lattice from the slice after it. *)
Definition induct_row (q disc : F) (vrow next : list F) : list F :=
  imap (λ j v,
          match next !! j, next !! (j + 1) with
          | Some a, Some b => keep (continuation q disc a b) v
          | _, _ => v
          end) vrow.

(** Backward induction over a whole lattice; the last slice is kept. *)
Fixpoint backward (q disc : F) (V : lattice F) : lattice F :=
  match V with
  | [] => []
  | vrow :: rest =>
      let rest' := backward q disc rest in
      match rest' with
      | [] => vrow :: rest'
      | next :: _ => induct_row q disc vrow next :: rest'
      end
  end.

(** A lattice has the triangular shape for [n] periods. *)
Definition triangular (n : nat) (L : lattice F) : Prop :=
  length L = S n ∧ ∀ i row, L !! i = Some row → length row = S i.

End lattice.

Global Arguments slices {F _} u d base_price n : simpl never.
Global Arguments payoffs {F _} investment L : simpl never.

(** ** Printing and the command line *)

(** The characters that end a cell and a row. *)
Definition tab : string := String (Ascii.ascii_of_nat 9) "".
Definition newline : string := String (Ascii.ascii_of_nat 10) "".

(** The padding printed where a slice has no node: [' ' * 6]. *)
Definition blank : string := "      ".

Section printing.
Context {F : Type} `{Arith F}.

(** ['{:06.2f}'.format], a builtin; it is total on floats. *)
Variable fmt : F → string.

(** [print(text, end='\t')] on the standard output [out]. *)
Definition print_cell (x : list F) (position : nat) (out : string)
    : option string :=
  match x !! position with
  | Some v => Some (out +:+ fmt v +:+ tab)
  | None => Some (out +:+ blank +:+ tab)   (* except IndexError *)
  end.

(** [for x in tree: ...] and then [print('')]. *)
Definition print_row (tree : lattice F) (position : nat) (out : string)
    : option string :=
  out' ← for_each tree (λ x o, print_cell x position o) out;
  Some (out' +:+ newline).

(** [print_tree]: the text written to the standard output, or [None]
    when [tree[-1]] raises [IndexError]. *)
Definition print_tree (tree : lattice F) : option string :=
  bottom ← last tree;
  for_each (seq 0 (length bottom)) (print_row tree) "".

(** What [docopt] returns for a command line that matches the usage: the
    three command flags and the text of each positional argument ([None]
    for an argument the matched pattern does not have). *)
Record arguments := {
  cmd_base_instrument : bool;
  cmd_internal_value : bool;
  cmd_delay_option_value : bool;
  arg_n : option string;
  arg_income : option string;
  arg_volatility : option string;
  arg_rf : option string;
  arg_inv : option string;
  arg_decline : option string;
}.

(** The builtins [int] and [float] on a string; [None] is [ValueError]. *)
Variable py_int : string → option Z.
Variable py_float : string → option F.

(** [int(arguments[...])] and [float(arguments[...])]: converting [None]
    raises [TypeError]. *)
Definition convert {A : Type} (conv : string → option A)
    (a : option string) : option A :=
  text ← a; conv text.

(** [run] after [docopt] has returned [a]: the text printed, or [None]
    when an exception ends the program. *)
Definition run (a : arguments) : option string :=
  n ← convert py_int (arg_n a);
  start_price ← convert py_float (arg_income a);
  volatility ← convert py_float (arg_volatility a);
  if cmd_base_instrument a then
    r_tree ← base_instr n start_price volatility;
    print_tree r_tree
  else if cmd_internal_value a then
    inv ← convert py_float (arg_inv a);
    r_tree ← internal_value_of_options n start_price inv volatility;
    print_tree r_tree
  else if cmd_delay_option_value a then
    rf ← convert py_float (arg_rf a);
    inv ← convert py_float (arg_inv a);
    decline ← convert py_float (arg_decline a);
    r_tree ← delay_option_value n start_price rf inv decline volatility;
    print_tree r_tree
  else Some "".

(** *** The printed table *)

(** The text of a table: every cell is followed by a tab, every row by a
    newline. *)
Definition render_row (cells : list string) : string :=
  foldr (λ c text, c +:+ tab +:+ text) newline cells.

Definition render (table : list (list string)) : string :=
  foldr (λ cells text, render_row cells +:+ text) "" table.

(** Row [position] of the table of a tree: one cell per slice. *)
Definition table_row (tree : lattice F) (position : nat) : list string :=
  (λ x : list F, match x !! position with
                 | Some v => fmt v
                 | None => blank
                 end) <$> tree.

End printing.

(** ** Real-number notions used by the numeric scenario *)

(** Term [i] of the series of [exp x]. *)
Definition exp_term (x : R) (i : nat) : R := (x ^ i / INR (fact i))%R.

(** [x] shows as [c] when printed with two decimal places. *)
Definition approx2 (x c : R) : Prop := (Rabs (x - c) <= 5 / 1000)%R.

(** Node [(i, j)] of a lattice that a stage returned is about [c]. *)
Definition node_approx2 (res : option (lattice R)) (i j : nat) (c : R) : Prop :=
  ∃ L x, res = Some L ∧ node L i j = Some x ∧ approx2 x c.

(** ** Facts that hold for every arithmetic *)

Section lattice_facts.
Context {F : Type} `{Arith F}.
Implicit Types (L V W : list (list F)) (row : list F).

Lemma for_each_app {A S : Type} (xs ys : list A) (body : A → S → option S)
    (st : S) :
  for_each (xs ++ ys) body st = st' ← for_each xs body st; for_each ys body st'.
Proof.
  revert st. induction xs as [|x xs IH]; intros st; simpl; [done|].
  destruct (body x st) as [st'|]; simpl; [apply IH | done].
Qed.

(** *** The price lattice *)

Lemma foldl_emit_cons u d (acc : list F) (a : F) (l : list F) :
  foldl (emit u d) (a :: acc) l = (a :: acc) ++ ((λ s, fmul s d) <$> l).
Proof.
  revert a acc. induction l as [|s l IH]; intros a acc; simpl.
  - by rewrite app_nil_r.
  - unfold emit at 2. simpl. rewrite IH. simpl. f_equal.
    by rewrite <- app_assoc.
Qed.

Lemma next_slice_nil u d : next_slice u d [] = [].
Proof. done. Qed.

Lemma next_slice_cons u d (s : F) (l : list F) :
  next_slice u d (s :: l) = fmul s u :: ((λ x, fmul x d) <$> (s :: l)).
Proof.
  unfold next_slice. simpl. unfold emit at 2. simpl.
  by rewrite foldl_emit_cons.
Qed.

Lemma slice_at_S u d bp i :
  slice_at u d bp (S i) = next_slice u d (slice_at u d bp i).
Proof. done. Qed.

Lemma slice_at_length u d bp i : length (slice_at u d bp i) = S i.
Proof.
  induction i as [|i IH]; [done|].
  rewrite slice_at_S. destruct (slice_at u d bp i) as [|s l]; [done|].
  rewrite next_slice_cons. simpl in *. rewrite length_fmap. lia.
Qed.

(** Node 0 of a slice is node 0 of the slice before it times [u]; node
    [j + 1] is node [j] of the slice before it times [d]. *)
Lemma slice_at_lookup_0 u d bp i :
  slice_at u d bp (S i) !! 0
  = (λ s, fmul s u) <$> slice_at u d bp i !! 0.
Proof.
  rewrite slice_at_S. destruct (slice_at u d bp i) as [|s l]; [done|].
  by rewrite next_slice_cons.
Qed.

Lemma slice_at_lookup_S u d bp i j :
  slice_at u d bp (S i) !! S j
  = (λ s, fmul s d) <$> slice_at u d bp i !! j.
Proof.
  rewrite slice_at_S. destruct (slice_at u d bp i) as [|s l] eqn:Hs.
  { pose proof (slice_at_length u d bp i) as Hl. by rewrite Hs in Hl. }
  rewrite next_slice_cons, <- Hs. by rewrite <- list_lookup_fmap.
Qed.




Lemma slices_S u d bp n :
  slices u d bp (S n) = slices u d bp n ++ [slice_at u d bp (S n)].
Proof. unfold slices. by rewrite (seq_S (S n)), fmap_app. Qed.

Lemma slices_length u d bp n : length (slices u d bp n) = S n.
Proof. unfold slices. by rewrite length_fmap, length_seq. Qed.

Lemma slices_lookup u d bp n i :
  i ≤ n → slices u d bp n !! i = Some (slice_at u d bp i).
Proof.
  intros Hi. unfold slices. rewrite list_lookup_fmap.
  rewrite lookup_seq_lt by lia. done.
Qed.

Lemma slices_lookup_inv u d bp n i row :
  slices u d bp n !! i = Some row → i ≤ n ∧ row = slice_at u d bp i.
Proof.
  intros Hl. assert (i < S n) as Hi.
  { rewrite <- (slices_length u d bp n). by eapply lookup_lt_Some. }
  rewrite slices_lookup in Hl by lia. split; [lia | congruence].
Qed.

Lemma slices_triangular u d bp n : triangular n (slices u d bp n).
Proof.
  split; [apply slices_length|].
  intros i row [_ ->]%slices_lookup_inv. apply slice_at_length.
Qed.

Lemma slices_last u d bp n :
  last (slices u d bp n) = Some (slice_at u d bp n).
Proof.
  rewrite last_lookup, slices_length. simpl. by apply slices_lookup.
Qed.

Lemma grow_slices u d bp n :
  grow u d (slices u d bp n) = Some (slices u d bp (S n)).
Proof. unfold grow. rewrite slices_last. simpl. by rewrite slices_S. Qed.

Lemma for_each_grow u d bp (k n : nat) (xs : list nat) :
  length xs = k →
  for_each xs (λ _ L, grow u d L) (slices u d bp n)
  = Some (slices u d bp (n + k)).
Proof.
  revert k n. induction xs as [|x xs IH]; intros k n <-; simpl.
  - by rewrite Nat.add_0_r.
  - rewrite grow_slices. simpl. rewrite (IH (length xs)) by done.
    f_equal. f_equal. lia.
Qed.

(** The construction loop ends and yields the slices [0..periods]
    (only slice 0 when [periods] is negative). *)
Lemma build_slices (periods : Z) (bp u d : F) :
  build periods bp u d = Some (slices u d bp (Z.to_nat periods)).
Proof.
  unfold build, range.
  change [[bp]] with (slices u d bp 0).
  by rewrite (for_each_grow u d bp (Z.to_nat periods)) by apply length_seq.
Qed.

(** *** A loop that assigns every node of one slice *)

Lemma set_node_insert L i row k (x : F) :
  i < length L → k < length row →
  set_node (<[i := row]> L) i k x = Some (<[i := <[k := x]> row]> L).
Proof.
  intros Hi Hk. unfold set_node.
  rewrite list_lookup_insert_eq by done. simpl.
  rewrite decide_True by done. by rewrite list_insert_insert_eq.
Qed.

Lemma insert_done_todo (f : nat → F) row k :
  k < length row →
  <[k := f k]> ((f <$> seq 0 k) ++ drop k row)
  = (f <$> seq 0 (S k)) ++ drop (S k) row.
Proof.
  intros Hk.
  assert (length (f <$> seq 0 k) = k) as Hlen
    by by rewrite length_fmap, length_seq.
  rewrite insert_app_r_alt by lia. rewrite Hlen, Nat.sub_diag.
  rewrite seq_S, fmap_app, <- app_assoc. f_equal.
  destruct (lookup_lt_is_Some_2 row k Hk) as [y Hy].
  by rewrite (drop_S row y k Hy).
Qed.

(** If each round [k] of the loop over the indices of slice [i] assigns
    [f k] to node [k], the loop assigns [f] to the whole slice. *)
Lemma for_each_set_row i (body : nat → lattice F → option (lattice F))
    (f : nat → F) L row :
  L !! i = Some row →
  (∀ k, k < length row →
     let L' := <[i := (f <$> seq 0 k) ++ drop k row]> L in
     body k L' = set_node L' i k (f k)) →
  for_each (seq 0 (length row)) body L
  = Some (<[i := f <$> seq 0 (length row)]> L).
Proof.
  intros Hrow Hbody.
  assert (i < length L) as Hi by by eapply lookup_lt_Some.
  assert (∀ m k, k + m = length row →
            for_each (seq k m) body (<[i := (f <$> seq 0 k) ++ drop k row]> L)
            = Some (<[i := f <$> seq 0 (length row)]> L)) as Hgen.
  { induction m as [|m IH]; intros k Hkm; simpl.
    - rewrite drop_ge by lia. rewrite app_nil_r.
      by replace k with (length row) by lia.
    - rewrite (Hbody k) by lia.
      rewrite set_node_insert; [|done|].
      2:{ rewrite length_app, length_fmap, length_seq, length_drop. lia. }
      simpl. rewrite insert_done_todo by lia. apply IH. lia. }
  specialize (Hgen (length row) 0 eq_refl). simpl in Hgen.
  rewrite drop_0 in Hgen. by rewrite list_insert_id in Hgen.
Qed.

(** *** The payoff pass *)

Lemma set_node_if (c : bool) L i k (x y : F) :
  (if c then set_node L i k x else set_node L i k y)
  = set_node L i k (if c then x else y).
Proof. by destruct c. Qed.

Lemma node_insert_todo L i (done : list F) row k :
  i < length L → length done = k →
  node (<[i := done ++ drop k row]> L) i k = row !! k.
Proof.
  intros Hi Hlen. unfold node. rewrite list_lookup_insert_eq by done. simpl.
  rewrite lookup_app_r by lia. rewrite Hlen, Nat.sub_diag.
  by rewrite lookup_drop, Nat.add_0_r.
Qed.

Lemma fmap_seq_lookup (g : F → F) row :
  (λ k, match row !! k with Some s => g s | None => f0 end)
    <$> seq 0 (length row) = g <$> row.
Proof.
  apply list_eq. intros k. rewrite !list_lookup_fmap.
  destruct (decide (k < length row)) as [Hk|Hk].
  - rewrite lookup_seq_lt by done. simpl.
    destruct (lookup_lt_is_Some_2 row k Hk) as [y Hy]. by rewrite Hy.
  - rewrite lookup_seq_ge by lia. by rewrite lookup_ge_None_2 by lia.
Qed.

Lemma payoff_slice_spec investment i L row :
  L !! i = Some row →
  payoff_slice investment i L = Some (<[i := payoff investment <$> row]> L).
Proof.
  intros Hrow. assert (i < length L) as Hi by by eapply lookup_lt_Some.
  unfold payoff_slice. rewrite Hrow. simpl.
  rewrite <- (fmap_seq_lookup (payoff investment) row).
  apply for_each_set_row; [done|]. intros k Hk L'. subst L'.
  unfold payoff_node.
  rewrite node_insert_todo by (by rewrite ?length_fmap, ?length_seq).
  destruct (lookup_lt_is_Some_2 row k Hk) as [s Hs]. rewrite Hs. simpl.
  by rewrite set_node_if.
Qed.

Lemma payoff_pass investment L m :
  m ≤ length L →
  for_each (seq 0 m) (payoff_slice investment) L
  = Some (payoffs investment (take m L) ++ drop m L).
Proof.
  induction m as [|m IH]; intros Hm.
  - simpl. by rewrite drop_0.
  - rewrite seq_S, for_each_app, IH by lia. simpl.
    destruct (lookup_lt_is_Some_2 L m ltac:(lia)) as [row Hrow].
    assert (length (payoffs investment (take m L)) = m) as Hlen.
    { unfold payoffs. rewrite length_fmap, length_take. lia. }
    rewrite (payoff_slice_spec _ _ _ row).
    2:{ rewrite lookup_app_r by lia. rewrite Hlen, Nat.sub_diag.
        by rewrite lookup_drop, Nat.add_0_r. }
    simpl. f_equal.
    rewrite insert_app_r_alt by lia. rewrite Hlen, Nat.sub_diag.
    rewrite (drop_S L row m Hrow). simpl.
    unfold payoffs.
    rewrite (take_S_r L m row Hrow), fmap_app, <- app_assoc. done.
Qed.

(** For [periods >= 0] the intrinsic-value lattice is the price lattice
    with [payoff] applied to every node. *)
Lemma internal_value_slices (periods : Z) (bp investment volatility : F) :
  (0 ≤ periods)%Z →
  internal_value_of_options periods bp investment volatility
  = Some (payoffs investment
            (slices (fexp volatility) (fexp (fneg volatility)) bp
               (Z.to_nat periods))).
Proof.
  intros Hp. unfold internal_value_of_options.
  rewrite build_slices. simpl. unfold range.
  replace (Z.to_nat (periods + 1)) with (S (Z.to_nat periods)) by lia.
  rewrite payoff_pass by (rewrite slices_length; lia).
  rewrite take_ge, drop_ge by (rewrite slices_length; lia).
  by rewrite app_nil_r.
Qed.

(** For a negative [periods] both loops make no round. *)
Lemma internal_value_negative (periods : Z) (bp investment volatility : F) :
  (periods < 0)%Z →
  internal_value_of_options periods bp investment volatility = Some [[bp]].
Proof.
  intros Hp. unfold internal_value_of_options.
  rewrite build_slices. simpl. unfold range.
  replace (Z.to_nat (periods + 1)) with 0 by lia.
  replace (Z.to_nat periods) with 0 by lia. done.
Qed.

(** *** Backward induction *)

Lemma induct_row_length q disc vrow next :
  length (induct_row q disc vrow next) = length vrow.
Proof. unfold induct_row. by rewrite length_imap. Qed.

Lemma induct_row_lookup q disc vrow next j v a b :
  vrow !! j = Some v → next !! j = Some a → next !! (j + 1) = Some b →
  induct_row q disc vrow next !! j = Some (keep (continuation q disc a b) v).
Proof.
  intros Hv Ha Hb. unfold induct_row.
  rewrite list_lookup_imap, Hv. simpl. by rewrite Ha, Hb.
Qed.

Lemma backward_cons q disc vrow rest :
  backward q disc (vrow :: rest)
  = match backward q disc rest with
    | [] => vrow
    | next :: _ => induct_row q disc vrow next
    end :: backward q disc rest.
Proof. simpl. by destruct (backward q disc rest). Qed.

Lemma backward_length q disc V : length (backward q disc V) = length V.
Proof.
  induction V as [|vrow rest IH]; [done|].
  rewrite backward_cons. simpl. by rewrite IH.
Qed.

Lemma backward_singleton q disc vrow : backward q disc [vrow] = [vrow].
Proof. done. Qed.

(** A slice that has a successor is induced from it. *)
Lemma backward_lookup_step q disc V i vrow next :
  V !! i = Some vrow → backward q disc V !! S i = Some next →
  backward q disc V !! i = Some (induct_row q disc vrow next).
Proof.
  revert i. induction V as [|v rest IH]; intros i Hv Hn; [done|].
  rewrite backward_cons in *. destruct i as [|i]; simpl in *.
  - destruct (backward q disc rest) as [|nx tl]; [done|].
    simpl in Hn. congruence.
  - by apply IH.
Qed.

(** The last slice is kept. *)
Lemma backward_lookup_last q disc V i :
  S i = length V → backward q disc V !! i = V !! i.
Proof.
  revert i. induction V as [|v rest IH]; intros i Hi; [done|].
  rewrite backward_cons. destruct i as [|i]; simpl in *.
  - destruct rest; [done | simpl in Hi; lia].
  - apply IH. lia.
Qed.

(** Every slice keeps its length. *)
Lemma backward_lookup_length q disc V i row vrow :
  backward q disc V !! i = Some row → V !! i = Some vrow →
  length row = length vrow.
Proof.
  revert i. induction V as [|v rest IH]; intros i Hr Hv; [done|].
  rewrite backward_cons in Hr. destruct i as [|i]; simpl in *.
  - destruct (backward q disc rest); simplify_eq; [done|].
    apply induct_row_length.
  - by eapply IH.
Qed.

Lemma imap_seq_lookup (g : nat → F → F) row :
  (λ k, match row !! k with Some s => g k s | None => f0 end)
    <$> seq 0 (length row) = imap g row.
Proof.
  apply list_eq. intros k. rewrite list_lookup_fmap, list_lookup_imap.
  destruct (decide (k < length row)) as [Hk|Hk].
  - rewrite lookup_seq_lt by done. simpl.
    destruct (lookup_lt_is_Some_2 row k Hk) as [y Hy]. by rewrite Hy.
  - rewrite lookup_seq_ge by lia. by rewrite lookup_ge_None_2 by lia.
Qed.

(** One round of the outer loop: slice [i] is induced from slice
    [i + 1], which must be longer by at least one node. *)
Lemma delay_slice_spec q rf tmp i W vrow next :
  W !! i = Some vrow → tmp !! i = Some vrow → W !! (i + 1) = Some next →
  length vrow < length next →
  delay_slice q rf tmp i W
  = Some (<[i := induct_row q (fexp (fneg rf)) vrow next]> W).
Proof.
  intros HW Htmp Hnext Hlen.
  assert (i < length W) as Hi by by eapply lookup_lt_Some.
  unfold delay_slice. rewrite HW. simpl.
  unfold induct_row. rewrite <- imap_seq_lookup.
  apply for_each_set_row; [done|]. intros k Hk L'.
  destruct (lookup_lt_is_Some_2 vrow k Hk) as [v Hv].
  destruct (lookup_lt_is_Some_2 next k ltac:(lia)) as [a Ha].
  destruct (lookup_lt_is_Some_2 next (k + 1) ltac:(lia)) as [b Hb].
  assert (∀ j, node L' (i + 1) j = next !! j) as Hup.
  { intros j. unfold node, L'.
    rewrite list_lookup_insert_ne by lia. by rewrite Hnext. }
  assert (node tmp i k = Some v) as Hnv by (unfold node; by rewrite Htmp).
  unfold delay_node. rewrite !Hup, Ha, Hb, Hnv. simpl.
  by rewrite set_node_if, Hv.
Qed.

Lemma reverse_seq_S m : reverse (seq 0 (S m)) = m :: reverse (seq 0 m).
Proof. by rewrite seq_S, reverse_app. Qed.

(** The outer loop, run over the slices [m-1, ..., 0] of a triangular
    lattice whose slices from [m] on are already induced. *)
Lemma backward_loop q rf V m :
  (∀ i row, V !! i = Some row → length row = S i) →
  m < length V →
  for_each (reverse (seq 0 m)) (delay_slice q rf V)
    (take m V ++ backward q (fexp (fneg rf)) (drop m V))
  = Some (backward q (fexp (fneg rf)) V).
Proof.
  intros Hshape. induction m as [|m IH]; intros Hm.
  - simpl. by rewrite drop_0.
  - rewrite reverse_seq_S. simpl.
    destruct (lookup_lt_is_Some_2 V m ltac:(lia)) as [vrow Hv].
    destruct (lookup_lt_is_Some_2 V (S m) Hm) as [vnext Hvn].
    assert (length (take m V) = m) as Hlen by (rewrite length_take; lia).
    rewrite (take_S_r V m vrow Hv), <- app_assoc. simpl.
    rewrite (drop_S V vnext (S m) Hvn), backward_cons.
    set (rest := backward q (fexp (fneg rf)) (drop (S (S m)) V)).
    set (next := match rest with
                 | [] => vnext
                 | nx :: _ => induct_row q (fexp (fneg rf)) vnext nx
                 end).
    assert (length next = S (S m)) as Hnext.
    { subst next. destruct rest; [|rewrite induct_row_length];
        by apply Hshape. }
    rewrite (delay_slice_spec q rf V m _ vrow next).
    + simpl. rewrite insert_app_r_alt by lia.
      rewrite Hlen, Nat.sub_diag. simpl.
      rewrite <- IH by lia. f_equal. f_equal.
      rewrite (drop_S V vrow m Hv), backward_cons.
      rewrite (drop_S V vnext (S m) Hvn), backward_cons. done.
    + rewrite lookup_app_r by lia. by rewrite Hlen, Nat.sub_diag.
    + done.
    + rewrite lookup_app_r by lia.
      by replace (m + 1 - length (take m V)) with 1 by lia.
    + rewrite Hnext, (Hshape m vrow Hv). lia.
Qed.

Lemma payoffs_triangular investment n L :
  triangular n L → triangular n (payoffs investment L).
Proof.
  intros [Hlen Hrows]. unfold payoffs. split; [by rewrite length_fmap|].
  intros i row Hrow. rewrite list_lookup_fmap in Hrow.
  destruct (L !! i) as [r|] eqn:Hr; simplify_eq/=.
  rewrite length_fmap. by eapply Hrows.
Qed.

(** For [periods >= 0] the loop of [delay_option_value] ends without
    an index error and yields the backward induction of the
    intrinsic-value lattice, whatever [q] is. *)
Lemma delay_option_value_backward (periods : Z)
    (bp rf investment decline volatility : F) :
  (0 ≤ periods)%Z →
  delay_option_value periods bp rf investment decline volatility
  = Some (backward (risk_neutral_q rf decline volatility) (fexp (fneg rf))
            (payoffs investment
               (slices (fexp volatility) (fexp (fneg volatility)) bp
                  (Z.to_nat periods)))).
Proof.
  intros Hp. unfold delay_option_value.
  rewrite internal_value_slices by done. cbn [mbind option_bind].
  unfold range_down.
  replace (Z.to_nat (periods - 1 + 1)) with (Z.to_nat periods) by lia.
  set (V := payoffs _ _).
  assert (triangular (Z.to_nat periods) V) as [Hlen Hrows]
    by apply payoffs_triangular, slices_triangular.
  rewrite <- (backward_loop _ rf V (Z.to_nat periods)) by (done || lia).
  f_equal.
  destruct (lookup_lt_is_Some_2 V (Z.to_nat periods) ltac:(lia)) as [r Hr].
  rewrite (drop_S V r _ Hr), drop_ge by lia.
  rewrite backward_singleton, <- (drop_ge V (S (Z.to_nat periods))) by lia.
  by rewrite <- (drop_S V r _ Hr), take_drop.
Qed.

Lemma node_lookup L i j row : L !! i = Some row → node L i j = row !! j.
Proof. intros Hrow. unfold node. by rewrite Hrow. Qed.

Lemma backward_triangular q disc n V :
  triangular n V → triangular n (backward q disc V).
Proof.
  intros [Hlen Hrows]. split; [by rewrite backward_length|].
  intros i row Hrow.
  assert (i < length V) as Hi.
  { rewrite <- (backward_length q disc). by eapply lookup_lt_Some. }
  destruct (lookup_lt_is_Some_2 V i Hi) as [vrow Hv].
  rewrite (backward_lookup_length q disc V i row vrow) by done.
  by apply Hrows.
Qed.

(** In the backward induction of a triangular lattice, a node of a
    slice before the last is the kept value of its two successors. *)
Lemma backward_node q disc n V i j :
  triangular n V → i < n → j ≤ i →
  ∃ a b v,
    node (backward q disc V) (i + 1) j = Some a ∧
    node (backward q disc V) (i + 1) (j + 1) = Some b ∧
    node V i j = Some v ∧
    node (backward q disc V) i j = Some (keep (continuation q disc a b) v).
Proof.
  intros HV Hi Hj.
  destruct (backward_triangular q disc n V HV) as [HlenW HrowsW].
  destruct HV as [HlenV HrowsV].
  destruct (lookup_lt_is_Some_2 V i ltac:(lia)) as [vrow Hv].
  destruct (lookup_lt_is_Some_2 (backward q disc V) (i + 1) ltac:(lia))
    as [next Hn].
  pose proof (HrowsV i vrow Hv) as Hlv.
  pose proof (HrowsW (i + 1) next Hn) as Hln.
  destruct (lookup_lt_is_Some_2 vrow j ltac:(lia)) as [v Hjv].
  destruct (lookup_lt_is_Some_2 next j ltac:(lia)) as [a Ha].
  destruct (lookup_lt_is_Some_2 next (j + 1) ltac:(lia)) as [b Hb].
  exists a, b, v.
  rewrite !(node_lookup _ (i + 1) _ next) by done.
  rewrite (node_lookup V i j vrow) by done.
  rewrite (node_lookup _ i j (induct_row q disc vrow next)).
  - split_and!; try done. by apply induct_row_lookup.
  - apply backward_lookup_step; [done|].
    by replace (S i) with (i + 1) by lia.
Qed.

Lemma delay_option_value_negative (periods : Z)
    (bp rf investment decline volatility : F) :
  (periods < 0)%Z →
  delay_option_value periods bp rf investment decline volatility
  = Some [[bp]].
Proof.
  intros Hp. unfold delay_option_value.
  rewrite internal_value_negative by done. simpl. unfold range_down.
  by replace (Z.to_nat (periods - 1 + 1)) with 0 by lia.
Qed.

End lattice_facts.

(** ** Facts at the real numbers *)

Section real_facts.
Local Open Scope R_scope.

Lemma payoff_Rmax (investment s : R) :
  payoff investment s = Rmax (s - investment) 0.
Proof.
  unfold payoff. simpl. unfold Rmax.
  destruct (Rlt_dec (s - investment) 0), (Rle_dec (s - investment) 0); lra.
Qed.

Lemma keep_Rmax (p v : R) : keep p v = Rmax p v.
Proof.
  unfold keep, fgtb. simpl. unfold Rmax.
  destruct (Rlt_dec v p), (Rle_dec p v); lra.
Qed.

Lemma exp_up_down (v : R) : exp v * exp (- v) = 1.
Proof. by rewrite <- exp_plus, Rplus_opp_r, exp_0. Qed.

Lemma exp_up_neq_down (v : R) : v ≠ 0 → exp v ≠ exp (- v).
Proof. intros Hv Heq. apply exp_inv in Heq. lra. Qed.

(** *** Node values of the price lattice *)

Lemma slice_at_first (u d bp : R) (i : nat) :
  slice_at u d bp i !! 0%nat = Some (bp * u ^ i).
Proof.
  induction i as [|i IH]; [simpl; f_equal; ring|].
  rewrite slice_at_lookup_0, IH. simpl. f_equal. ring.
Qed.

Lemma slice_at_node (u d bp : R) (i j : nat) :
  (j ≤ i)%nat →
  slice_at u d bp i !! j = Some (bp * u ^ (i - j) * d ^ j).
Proof.
  revert j. induction i as [|i IH]; intros j Hj.
  - replace j with 0%nat by lia. simpl. f_equal. ring.
  - destruct j as [|j].
    + rewrite slice_at_first. f_equal. rewrite Nat.sub_0_r. simpl. ring.
    + rewrite slice_at_lookup_S, (IH j) by lia. simpl. f_equal. ring.
Qed.

Lemma base_instr_slices (periods : Z) (bp vol : R) :
  base_instr periods bp vol
  = Some (slices (exp vol) (exp (- vol)) bp (Z.to_nat periods)).
Proof. apply build_slices. Qed.

(** *** Bounds on [exp] from its alternating series *)

Lemma exp_term_decreasing (x : R) :
  0 <= x <= 1 → Un_decreasing (exp_term x).
Proof.
  intros Hx n. unfold exp_term.
  assert (0 < INR (fact n)) as Hf by apply INR_fact_lt_0.
  assert (0 <= x ^ n) as Hp by (apply pow_le; lra).
  rewrite fact_simpl, mult_INR, S_INR. simpl.
  assert (0 <= INR n) as Hn by apply pos_INR.
  unfold Rdiv. rewrite Rinv_mult.
  assert (0 < / INR (fact n)) as Hi by by apply Rinv_0_lt_compat.
  assert (0 < / (INR n + 1) <= 1) as [Hs1 Hs2].
  { split; [apply Rinv_0_lt_compat; lra|].
    rewrite <- Rinv_1 at 2. apply Rinv_le_contravar; lra. }
  assert (0 <= x ^ n * / INR (fact n)) as Ht by nra.
  replace (x * x ^ n * (/ (INR n + 1) * / INR (fact n)))
    with ((x ^ n * / INR (fact n)) * (x * / (INR n + 1))) by ring.
  assert (x * / (INR n + 1) <= 1) by nra.
  nra.
Qed.

Lemma exp_neg_series (x : R) :
  Un_cv (λ N, sum_f_R0 (tg_alt (exp_term x)) N) (exp (- x)).
Proof.
  unfold exp. destruct (exist_exp (- x)) as [l Hl]. simpl.
  unfold exp_in, infinite_sum in Hl. intros eps Heps.
  destruct (Hl eps Heps) as [N HN]. exists N. intros n Hn.
  rewrite <- (sum_eq (λ i, / INR (fact i) * (- x) ^ i)); [by apply HN|].
  intros i _. unfold tg_alt, exp_term.
  replace (- x) with (-1 * x) by ring. rewrite Rpow_mult_distr.
  unfold Rdiv. ring.
Qed.

Lemma exp_neg_bounds (x : R) (N : nat) :
  0 <= x <= 1 →
  sum_f_R0 (tg_alt (exp_term x)) (S (2 * N)) <= exp (- x)
    <= sum_f_R0 (tg_alt (exp_term x)) (2 * N).
Proof.
  intros Hx. apply alternated_series_ineq.
  - by apply exp_term_decreasing.
  - apply cv_speed_pow_fact.
  - apply exp_neg_series.
Qed.

Ltac eval_factorials H :=
  rewrite ?INR_IZR_INZ in H;
  repeat match type of H with
         | context [Z.of_nat (fact ?k)] =>
             let t := eval vm_compute in (Z.of_nat (fact k)) in
             change (Z.of_nat (fact k)) with t in H
         end.

(** [d = exp(-0.3)] and [u = exp(0.3)] to six decimal places. *)
Lemma exp_down_03 :
  740818 / 1000000 <= exp (- (3 / 10)) <= 740819 / 1000000.
Proof.
  destruct (exp_neg_bounds (3 / 10) 3 ltac:(lra)) as [Hlo Hhi].
  unfold tg_alt, exp_term in Hlo, Hhi.
  cbn [sum_f_R0 Nat.mul Nat.add pow] in Hlo, Hhi.
  eval_factorials Hlo. eval_factorials Hhi.
  lra.
Qed.

Lemma exp_up_03 : 1349857 / 1000000 <= exp (3 / 10) <= 1349860 / 1000000.
Proof.
  pose proof exp_down_03 as [Hlo Hhi].
  pose proof (exp_up_down (3 / 10)) as Hud.
  pose proof (exp_pos (3 / 10)) as Hpos.
  split; nra.
Qed.

End real_facts.

(** ** Printing: facts *)

Section printing_facts.
Context {F : Type} `{Arith F} (fmt : F → string).
Implicit Types (tree : list (list F)) (out : string).

Lemma string_app_assoc (a b c : string) : (a +:+ b) +:+ c = a +:+ b +:+ c.
Proof.
  induction a as [|ch a IH]; [done|].
  change (String ch ((a +:+ b) +:+ c) = String ch (a +:+ b +:+ c)).
  by rewrite IH.
Qed.

Lemma string_app_empty_r (a : string) : a +:+ "" = a.
Proof.
  induction a as [|ch a IH]; [done|].
  change (String ch (a +:+ "") = String ch a). by rewrite IH.
Qed.

Lemma render_row_cons (c : string) (cells : list string) :
  render_row (c :: cells) = c +:+ tab +:+ render_row cells.
Proof. done. Qed.

Lemma print_cell_text (x : list F) position out :
  print_cell fmt x position out
  = Some (out +:+ match x !! position with
                  | Some v => fmt v
                  | None => blank
                  end +:+ tab).
Proof. unfold print_cell. by destruct (x !! position). Qed.

Lemma print_cells_render tree position out :
  for_each tree (λ x o, print_cell fmt x position o) out
  ≫= (λ out', Some (out' +:+ newline))
  = Some (out +:+ render_row (table_row fmt tree position)).
Proof.
  revert out. induction tree as [|x tree IH]; intros out; [done|].
  cbn [for_each]. rewrite print_cell_text. cbn [mbind option_bind].
  rewrite IH. unfold table_row. rewrite fmap_cons, render_row_cons.
  by rewrite !string_app_assoc.
Qed.

Lemma print_row_render tree position out :
  print_row fmt tree position out
  = Some (out +:+ render_row (table_row fmt tree position)).
Proof. apply print_cells_render. Qed.

Lemma print_rows_render tree (positions : list nat) out :
  for_each positions (print_row fmt tree) out
  = Some (out +:+ render (table_row fmt tree <$> positions)).
Proof.
  revert out. induction positions as [|p positions IH]; intros out; simpl.
  - by rewrite string_app_empty_r.
  - rewrite print_row_render. simpl. rewrite IH.
    by rewrite string_app_assoc.
Qed.

(** A tree that has a last slice is printed as a table with one row per
    node of that slice and one cell per slice. *)
Lemma print_tree_table tree bottom :
  last tree = Some bottom →
  print_tree fmt tree
  = Some (render (table_row fmt tree <$> seq 0 (length bottom))).
Proof.
  intros Hlast. unfold print_tree. rewrite Hlast. simpl.
  by rewrite print_rows_render.
Qed.

Lemma triangular_last n tree :
  triangular n tree → ∃ bottom, last tree = Some bottom ∧ length bottom = S n.
Proof.
  intros [Hlen Hrows]. rewrite last_lookup, Hlen. simpl.
  destruct (lookup_lt_is_Some_2 tree n ltac:(lia)) as [bottom Hb].
  exists bottom. split; [done|]. by eapply Hrows.
Qed.

Lemma triangular_node n tree i j :
  triangular n tree → i ≤ n →
  (j ≤ i → is_Some (node tree i j)) ∧ (i < j → node tree i j = None).
Proof.
  intros [Hlen Hrows] Hi.
  destruct (lookup_lt_is_Some_2 tree i ltac:(lia)) as [row Hrow].
  rewrite (node_lookup tree i j row Hrow).
  pose proof (Hrows i row Hrow) as Hl. split; intros Hj.
  - apply lookup_lt_is_Some_2. lia.
  - apply lookup_ge_None_2. lia.
Qed.

End printing_facts.

(** ** More facts for every arithmetic *)

Section more_lattice_facts.
Context {F : Type} `{Arith F}.
Implicit Types (L V W : list (list F)).

Lemma triangular_node_inv n L i j (x : F) :
  triangular n L → node L i j = Some x → i ≤ n ∧ j ≤ i.
Proof.
  intros [Hlen Hrows]. unfold node.
  destruct (L !! i) as [row|] eqn:Hrow; [|done]. simpl. intros Hj.
  pose proof (Hrows i row Hrow) as Hl.
  apply lookup_lt_Some in Hrow. apply lookup_lt_Some in Hj. lia.
Qed.

Lemma payoffs_node investment L i j :
  node (payoffs investment L) i j = payoff investment <$> node L i j.
Proof.
  unfold node, payoffs. rewrite list_lookup_fmap.
  destruct (L !! i) as [row|]; [|done]. simpl. by rewrite list_lookup_fmap.
Qed.

Lemma slices_node u d bp n i j :
  i ≤ n → node (slices u d bp n) i j = slice_at u d bp i !! j.
Proof. intros Hi. apply node_lookup. by apply slices_lookup. Qed.

(** Backward induction as a proof rule: a property that holds on the
    terminal slice and passes from the two successors of a node to the
    node holds at every node of the induced lattice. *)
Lemma backward_nodes_ind q disc n V (P : nat → nat → F → Prop) :
  triangular n V →
  (∀ j v, j ≤ n → node V n j = Some v → P n j v) →
  (∀ i j a b v, i < n → j ≤ i → node V i j = Some v →
     P (i + 1) j a → P (i + 1) (j + 1) b →
     P i j (keep (continuation q disc a b) v)) →
  ∀ i j, i ≤ n → j ≤ i →
    ∃ w, node (backward q disc V) i j = Some w ∧ P i j w.
Proof.
  intros HV Hterm Hstep.
  assert (∀ k i j, i + k = n → j ≤ i →
            ∃ w, node (backward q disc V) i j = Some w ∧ P i j w) as Hgen.
  { induction k as [|k IH]; intros i j Hik Hj.
    - assert (i = n) as -> by lia.
      destruct (triangular_node _ _ n j HV ltac:(lia)) as [[v Hv] _]; [done|].
      exists v. split; [|by apply Hterm].
      destruct HV as [Hlen _]. unfold node in *.
      by rewrite backward_lookup_last.
    - destruct (backward_node q disc n V i j HV ltac:(lia) Hj)
        as (a & b & v & Ha & Hb & Hv & Hw).
      destruct (IH (i + 1) j ltac:(lia) ltac:(lia)) as (a' & Ha' & HPa).
      destruct (IH (i + 1) (j + 1) ltac:(lia) ltac:(lia)) as (b' & Hb' & HPb).
      simplify_eq. eexists. split; [done|]. apply Hstep; (done || lia). }
  intros i j Hi Hj. apply (Hgen (n - i)); lia.
Qed.

End more_lattice_facts.

(** ** The claims *)

Section claims.
Local Open Scope R_scope.

(** C8. For [periods = n >= 0] each of the three stages returns a lattice
    with exactly [n + 1] slices in which slice [i] has exactly [i + 1]
    nodes; for [periods = 0] it is a single slice with a single node.
    This holds for every arithmetic. *)
Theorem stages_triangular (F : Type) (A : Arith F) (periods : Z)
    (bp rf investment decline volatility : F) :
  (0 ≤ periods)%Z →
  ∃ P V W : lattice F,
    base_instr periods bp volatility = Some P ∧
    internal_value_of_options periods bp investment volatility = Some V ∧
    delay_option_value periods bp rf investment decline volatility = Some W ∧
    triangular (Z.to_nat periods) P ∧
    triangular (Z.to_nat periods) V ∧
    triangular (Z.to_nat periods) W ∧
    (periods = 0%Z → ∃ p v w : F, P = [[p]] ∧ V = [[v]] ∧ W = [[w]]).
Proof.
  intros Hp. eexists _, _, _. split_and!.
  - apply build_slices.
  - by apply internal_value_slices.
  - by apply delay_option_value_backward.
  - apply slices_triangular.
  - apply payoffs_triangular, slices_triangular.
  - apply backward_triangular, payoffs_triangular, slices_triangular.
  - intros ->. by eexists _, _, _.
Qed.

Lemma stages_triangular_witness :
  ∃ P V W : lattice R,
    base_instr 2 90 (3 / 10) = Some P ∧
    internal_value_of_options 2 90 100 (3 / 10) = Some V ∧
    delay_option_value 2 90 (6 / 100) 100 (5 / 100) (3 / 10) = Some W ∧
    triangular 2 P ∧ triangular 2 V ∧ triangular 2 W ∧
    (2%Z = 0%Z → ∃ p v w : R, P = [[p]] ∧ V = [[v]] ∧ W = [[w]]).
Proof.
  apply (stages_triangular R R_arith 2 90 (6 / 100) 100 (5 / 100) (3 / 10)).
  lia.
Defined.

(** C5 (as amended). A negative period count is not rejected: every loop
    makes no round and each of the three stages returns the one-node
    lattice [[[base_price]]], the base price not even replaced by its
    payoff.  This holds for every arithmetic. *)
Theorem negative_periods_single_node (F : Type) (A : Arith F) (periods : Z)
    (bp rf investment decline volatility : F) :
  (periods < 0)%Z →
  base_instr periods bp volatility = Some [[bp]] ∧
  internal_value_of_options periods bp investment volatility = Some [[bp]] ∧
  delay_option_value periods bp rf investment decline volatility
  = Some [[bp]].
Proof.
  intros Hp. split_and!.
  - unfold base_instr. rewrite build_slices.
    by replace (Z.to_nat periods) with 0%nat by lia.
  - by apply internal_value_negative.
  - by apply delay_option_value_negative.
Qed.

Lemma negative_periods_single_node_witness :
  base_instr (-3) 90 (3 / 10) = Some [[90]] ∧
  internal_value_of_options (-3) 90 100 (3 / 10) = Some [[90]] ∧
  delay_option_value (-3) 90 (6 / 100) 100 (5 / 100) (3 / 10) = Some [[90]].
Proof.
  apply (negative_periods_single_node R R_arith (-3) 90 (6 / 100) 100
           (5 / 100) (3 / 10)).
  lia.
Defined.

(** C5 (as stated) fails: for [periods = -1] nothing is rejected, a
    lattice is built and returned by each stage. *)
Lemma negative_periods_not_rejected :
  (-1 < 0)%Z ∧
  base_instr (-1) 90 (3 / 10) = Some [[90]] ∧
  internal_value_of_options (-1) 90 100 (3 / 10) = Some [[90]] ∧
  delay_option_value (-1) 90 (6 / 100) 100 (5 / 100) (3 / 10) = Some [[90]].
Proof.
  split; [lia|]. split; [by rewrite base_instr_slices|].
  split; [by apply internal_value_negative|].
  by apply delay_option_value_negative.
Qed.

(** C4 (as amended). When [u = d] no error is reported: the division by
    [u - d] is carried out unchecked and [delay_option_value] returns a
    lattice of the usual triangular shape.  This holds for every
    arithmetic. *)
Theorem degenerate_market_returns_lattice (F : Type) (A : Arith F)
    (periods : Z) (bp rf investment decline volatility : F) :
  fexp volatility = fexp (fneg volatility) →
  ∃ W : lattice F,
    delay_option_value periods bp rf investment decline volatility = Some W ∧
    triangular (Z.to_nat periods) W.
Proof.
  intros _. destruct (Z_lt_le_dec periods 0) as [Hneg|Hpos].
  - exists [[bp]]. split; [by apply delay_option_value_negative|].
    replace (Z.to_nat periods) with 0%nat by lia.
    split; [done|]. by intros [|i] row [=<-].
  - eexists. split; [by apply delay_option_value_backward|].
    apply backward_triangular, payoffs_triangular, slices_triangular.
Qed.

Lemma degenerate_market_returns_lattice_witness :
  ∃ W : lattice R,
    delay_option_value 2 90 (6 / 100) 100 (5 / 100) 0 = Some W ∧
    triangular 2 W.
Proof.
  apply (degenerate_market_returns_lattice R R_arith 2 90 (6 / 100) 100
           (5 / 100) 0).
  simpl. by rewrite Ropp_0.
Defined.

(** C4 (as stated) fails: with [volatility = 0], so that [u = d],
    [delay_option_value] reports nothing and returns a lattice. *)
Lemma degenerate_market_not_reported :
  exp 0 = exp (- 0) ∧
  delay_option_value 1 90 (6 / 100) 100 (5 / 100) 0 = Some [[0]; [0; 0]].
Proof.
  split; [by rewrite Ropp_0|].
  rewrite delay_option_value_backward by lia.
  change (Z.to_nat 1) with 1%nat.
  assert (payoff 100 90 = 0) as Hp0.
  { rewrite payoff_Rmax. unfold Rmax. destruct (Rle_dec _ _); lra. }
  assert (payoff 100 (90 * exp 0) = 0) as Hp1.
  { rewrite exp_0, payoff_Rmax. unfold Rmax. destruct (Rle_dec _ _); lra. }
  assert (payoff 100 (90 * exp (- 0)) = 0) as Hp2.
  { rewrite Ropp_0, exp_0, payoff_Rmax. unfold Rmax.
    destruct (Rle_dec _ _); lra. }
  change (slices (fexp 0) (fexp (fneg 0)) 90 1)
    with [[90]; [90 * exp 0; 90 * exp (- 0)]].
  change (payoffs 100 [[90]; [90 * exp 0; 90 * exp (- 0)]])
    with [[payoff 100 90];
          [payoff 100 (90 * exp 0); payoff 100 (90 * exp (- 0))]].
  rewrite Hp0, Hp1, Hp2, backward_cons, backward_singleton.
  unfold induct_row. cbn [imap lookup list_lookup Nat.add].
  rewrite keep_Rmax. unfold continuation. cbn.
  do 3 f_equal. unfold Rmax. destruct (Rle_dec _ _); lra.
Qed.




(** C3. For [periods >= 0] and a positive base price, the lattice
    returned by [internal_value_of_options] is the lattice returned by
    [base_instr] with every node [s] replaced by
    [max (s - investment) 0]. *)
Theorem internal_value_is_payoff_of_base (periods : Z)
    (bp investment vol : R) :
  (0 ≤ periods)%Z → 0 < bp →
  ∃ P : lattice R,
    base_instr periods bp vol = Some P ∧
    internal_value_of_options periods bp investment vol
    = Some ((λ row : list R, (λ s, Rmax (s - investment) 0) <$> row) <$> P).
Proof.
  intros Hp Hbp. eexists. split; [apply base_instr_slices|].
  rewrite internal_value_slices by done. f_equal. unfold payoffs.
  apply list_fmap_ext. intros _ row _.
  apply list_fmap_ext. intros _ s _. apply payoff_Rmax.
Qed.

Lemma internal_value_is_payoff_of_base_witness :
  ∃ P : lattice R,
    base_instr 2 90 (3 / 10) = Some P ∧
    internal_value_of_options 2 90 100 (3 / 10)
    = Some ((λ row : list R, (λ s, Rmax (s - 100) 0) <$> row) <$> P).
Proof.
  apply (internal_value_is_payoff_of_base 2 90 100 (3 / 10)); [lia | lra].
Defined.

(** C7 (as amended). For [periods >= 0] no node of the lattice returned
    by [internal_value_of_options] is less than 0: the test [v < 0] is
    false at every node [v] (a node can be NaN, which is not [>= 0]
    either).  This holds for every arithmetic in which [0 < 0] is false,
    binary64 included. *)
Theorem internal_value_never_negative (F : Type) (A : Arith F)
    (periods : Z) (bp investment vol : F) :
  fltb f0 f0 = false → (0 ≤ periods)%Z →
  ∃ V : lattice F,
    internal_value_of_options periods bp investment vol = Some V ∧
    ∀ (i j : nat) (v : F), node V i j = Some v → fltb v f0 = false.
Proof.
  intros H00 Hp. eexists. split; [by apply internal_value_slices|].
  intros i j v. rewrite payoffs_node.
  destruct (node _ i j) as [s|]; [|done]. simpl. intros [= <-].
  unfold payoff. by destruct (fltb (fsub s investment) f0) eqn:Hlt.
Qed.

Lemma internal_value_never_negative_witness :
  ∃ V : lattice PrimFloat.float,
    internal_value_of_options 2 90%float 100%float 1000%float = Some V ∧
    ∀ (i j : nat) (v : PrimFloat.float),
      node V i j = Some v → fltb v f0 = false.
Proof.
  apply (internal_value_never_negative PrimFloat.float float_arith 2
           90%float 100%float 1000%float); [reflexivity | lia].
Defined.

(** C7 (as stated) fails in binary64: with [volatility = 1000],
    [u = exp 1000] overflows to infinity and [d = exp (-1000)] is 0, node
    1 of slice 2 is [inf * 0 - 100 = nan], and [0 <= nan] is false. *)
Lemma internal_value_nan_binary64 :
  internal_value_of_options 2 90%float 100%float 1000%float
  = Some [[0%float]; [PrimFloat.infinity; 0%float];
          [PrimFloat.infinity; PrimFloat.nan; 0%float]] ∧
  PrimFloat.leb 0%float PrimFloat.nan = false.
Proof. split; by vm_compute. Qed.

(** C10. For [periods = 0] and [u <> d], [delay_option_value] returns
    the one-node lattice [[[max (base_price - investment) 0]]]: the
    intrinsic-value lattice, with no discounting and no weighting. *)
Theorem delay_option_value_zero_periods (bp rf investment decline vol : R) :
  exp vol ≠ exp (- vol) →
  delay_option_value 0 bp rf investment decline vol
  = Some [[Rmax (bp - investment) 0]] ∧
  internal_value_of_options 0 bp investment vol
  = Some [[Rmax (bp - investment) 0]].
Proof.
  intros _. rewrite delay_option_value_backward, internal_value_slices by lia.
  change (Z.to_nat 0) with 0%nat.
  change (slices (fexp vol) (fexp (fneg vol)) bp 0) with [[bp]].
  change (payoffs investment [[bp]]) with [[payoff investment bp]].
  by rewrite backward_singleton, payoff_Rmax.
Qed.

Lemma delay_option_value_zero_periods_witness :
  delay_option_value 0 90 (6 / 100) 100 (5 / 100) (3 / 10)
  = Some [[Rmax (90 - 100) 0]] ∧
  internal_value_of_options 0 90 100 (3 / 10) = Some [[Rmax (90 - 100) 0]].
Proof.
  apply (delay_option_value_zero_periods 90 (6 / 100) 100 (5 / 100) (3 / 10)).
  apply exp_up_neq_down. lra.
Defined.



(** C6 (as amended). For [periods = n >= 0] and [u <> d], every node of
    the lattice returned by [delay_option_value] is the node at the same
    place of the lattice returned by [internal_value_of_options], or is
    greater than it by the comparison of the code (where the latter node
    is NaN, the former is the same NaN).  This holds for every
    arithmetic, binary64 included. *)
Theorem delay_equal_or_greater (F : Type) (A : Arith F) (periods : Z)
    (bp rf investment decline vol : F) :
  (0 ≤ periods)%Z → fexp vol ≠ fexp (fneg vol) →
  ∃ W V : lattice F,
    delay_option_value periods bp rf investment decline vol = Some W ∧
    internal_value_of_options periods bp investment vol = Some V ∧
    ∀ i j : nat, (i ≤ Z.to_nat periods)%nat → (j ≤ i)%nat →
      ∃ w v : F,
        node W i j = Some w ∧ node V i j = Some v ∧
        (w = v ∨ fgtb w v = true).
Proof.
  intros Hp _. eexists _, _.
  split; [by apply delay_option_value_backward|].
  split; [by apply internal_value_slices|].
  set (V := payoffs _ _).
  assert (triangular (Z.to_nat periods) V) as HV
    by apply payoffs_triangular, slices_triangular.
  intros i j Hi Hj.
  destruct (backward_nodes_ind (risk_neutral_q rf decline vol)
              (fexp (fneg rf)) _ V
              (λ i j w, ∃ v, node V i j = Some v ∧ (w = v ∨ fgtb w v = true))
              HV) with (i := i) (j := j)
    as (w & Hw & v & Hv & Hwv); [| |done..|by exists w, v].
  - intros k v _ Hv. exists v. by split; [|left].
  - intros k l a b v _ _ Hv _ _. exists v. split; [done|].
    unfold keep. destruct (fgtb _ v) eqn:Hgt; [by right | by left].
Qed.

Lemma delay_equal_or_greater_witness :
  ∃ W V : lattice PrimFloat.float,
    delay_option_value 2 90%float 0x1.eb851eb851eb8p-5%float 100%float
      0x1.eb851eb851eb8p-5%float 1000%float = Some W ∧
    internal_value_of_options 2 90%float 100%float 1000%float = Some V ∧
    ∀ i j : nat, (i ≤ Z.to_nat 2)%nat → (j ≤ i)%nat →
      ∃ w v : PrimFloat.float,
        node W i j = Some w ∧ node V i j = Some v ∧
        (w = v ∨ fgtb w v = true).
Proof.
  apply (delay_equal_or_greater PrimFloat.float float_arith 2 90%float
           0x1.eb851eb851eb8p-5%float 100%float 0x1.eb851eb851eb8p-5%float
           1000%float).
  - lia.
  - intros Heq.
    apply (f_equal (λ x, PrimFloat.eqb x 0%float)) in Heq.
    vm_compute in Heq. discriminate.
Defined.

(** C6 (as stated) fails in binary64: with [volatility = 1000], so that
    [u = inf] and [d = 0] differ, and [rf = decline = 0.06], node 1 of
    slice 2 is NaN in both lattices, and [nan <= nan] is false. *)
Lemma delay_nan_binary64 :
  PrimFloat.eqb (fexp 1000%float) (fexp (fneg 1000%float)) = false ∧
  delay_option_value 2 90%float 0x1.eb851eb851eb8p-5%float 100%float
    0x1.eb851eb851eb8p-5%float 1000%float
  = Some [[0%float]; [PrimFloat.infinity; 0%float];
          [PrimFloat.infinity; PrimFloat.nan; 0%float]] ∧
  internal_value_of_options 2 90%float 100%float 1000%float
  = Some [[0%float]; [PrimFloat.infinity; 0%float];
          [PrimFloat.infinity; PrimFloat.nan; 0%float]] ∧
  PrimFloat.leb PrimFloat.nan PrimFloat.nan = false.
Proof. split_and!; by vm_compute. Qed.

Lemma base_instr_scenario :
  base_instr 2 90 (3 / 10)
  = Some [[90];
          [90 * exp (3 / 10); 90 * exp (- (3 / 10))];
          [90 * exp (3 / 10) * exp (3 / 10);
           90 * exp (3 / 10) * exp (- (3 / 10));
           90 * exp (- (3 / 10)) * exp (- (3 / 10))]].
Proof. by rewrite base_instr_slices. Qed.

Lemma node_approx2_intro (res : option (lattice R)) L i j x c :
  res = Some L → node L i j = Some x → c - 5 / 1000 <= x <= c + 5 / 1000 →
  node_approx2 res i j c.
Proof.
  intros HL Hx Hc. exists L, x. split_and!; [done..|].
  unfold approx2. apply Rabs_le. lra.
Qed.

Lemma node_approx2_elim (res : option (lattice R)) L i j x c :
  res = Some L → node L i j = Some x → node_approx2 res i j c →
  c - 5 / 1000 <= x <= c + 5 / 1000.
Proof.
  intros HL Hx (L' & x' & HL' & Hx' & Hc). simplify_eq.
  unfold approx2, Rabs in Hc. destruct (Rcase_abs _); lra.
Qed.

(** C9 (as amended). For [periods = 2], [base_price = 90] and
    [volatility = 0.3] the lattice returned by [base_instr] has slice 0
    equal to [[90]], slice 1 about [[121.49, 66.67]] and slice 2 about
    [[163.99, 90.00, 49.39]], to the two decimal places displayed. *)
Theorem base_instr_scenario_values :
  ∃ L s1 s2,
    base_instr 2 90 (3 / 10) = Some L ∧
    L !! 0%nat = Some [90] ∧
    L !! 1%nat = Some s1 ∧ length s1 = 2%nat ∧
    L !! 2%nat = Some s2 ∧ length s2 = 3%nat ∧
    node_approx2 (base_instr 2 90 (3 / 10)) 1 0 (12149 / 100) ∧
    node_approx2 (base_instr 2 90 (3 / 10)) 1 1 (6667 / 100) ∧
    node_approx2 (base_instr 2 90 (3 / 10)) 2 0 (16399 / 100) ∧
    node_approx2 (base_instr 2 90 (3 / 10)) 2 1 90 ∧
    node_approx2 (base_instr 2 90 (3 / 10)) 2 2 (4939 / 100).
Proof.
  pose proof exp_down_03 as [Hdl Hdh]. pose proof exp_up_03 as [Hul Huh].
  pose proof (exp_up_down (3 / 10)) as Hud.
  eexists _, _, _. split; [apply base_instr_scenario|].
  split_and!; try done;
    (eapply node_approx2_intro;
     [apply base_instr_scenario | reflexivity | split; nra]).
Qed.

(** C9 (as stated) fails: node 0 of slice 1 is [90 * exp 0.3], which is
    more than 121.48 and so is not 121.40 to two decimal places. *)
Lemma base_instr_scenario_not_as_stated :
  ¬ (node_approx2 (base_instr 2 90 (3 / 10)) 0 0 90 ∧
     node_approx2 (base_instr 2 90 (3 / 10)) 1 0 (12140 / 100) ∧
     node_approx2 (base_instr 2 90 (3 / 10)) 1 1 (6677 / 100) ∧
     node_approx2 (base_instr 2 90 (3 / 10)) 2 0 (16389 / 100) ∧
     node_approx2 (base_instr 2 90 (3 / 10)) 2 1 90 ∧
     node_approx2 (base_instr 2 90 (3 / 10)) 2 2 (4956 / 100)).
Proof.
  intros (_ & H10 & _).
  pose proof exp_up_03 as [Hul Huh].
  pose proof (node_approx2_elim _ _ 1 0 _ _ base_instr_scenario eq_refl H10).
  lra.
Qed.

End claims.

(** ** More facts at the real numbers *)

Section more_real_facts.
Local Open Scope R_scope.

Lemma price_node (vol bp : R) (n i j : nat) :
  (i ≤ n)%nat → (j ≤ i)%nat →
  node (slices (exp vol) (exp (- vol)) bp n) i j
  = Some (bp * exp vol ^ (i - j) * exp (- vol) ^ j).
Proof. intros Hi Hj. rewrite slices_node by done. by apply slice_at_node. Qed.

End more_real_facts.

(** ** Further properties of the code *)

Section further_properties.
Local Open Scope R_scope.

(** X1. In the lattice returned by [base_instr], node 0 of slice [i + 1]
    is node 0 of slice [i] times [u], and node [j + 1] of slice [i + 1]
    is node [j] of slice [i] times [d]: every node but the first of a
    slice comes from a down move.  This holds for every arithmetic. *)
Theorem base_instr_children (F : Type) (A : Arith F) (periods : Z)
    (bp vol : F) :
  ∃ L : lattice F,
    base_instr periods bp vol = Some L ∧
    ∀ i : nat, (i < Z.to_nat periods)%nat →
      (∃ s, node L i 0 = Some s ∧
            node L (i + 1) 0 = Some (fmul s (fexp vol))) ∧
      (∀ j : nat, (j ≤ i)%nat →
         ∃ s, node L i j = Some s ∧
              node L (i + 1) (j + 1) = Some (fmul s (fexp (fneg vol)))).
Proof.
  eexists. split; [apply build_slices|]. intros i Hi.
  assert (∀ j, (j ≤ i)%nat →
            ∃ s, slice_at (fexp vol) (fexp (fneg vol)) bp i !! j = Some s)
    as Hsome.
  { intros j Hj. apply lookup_lt_is_Some_2. rewrite slice_at_length. lia. }
  replace (i + 1)%nat with (S i) by lia. split.
  - destruct (Hsome 0%nat ltac:(lia)) as [s Hs]. exists s.
    rewrite !slices_node by lia. by rewrite slice_at_lookup_0, Hs.
  - intros j Hj. destruct (Hsome j Hj) as [s Hs]. exists s.
    replace (j + 1)%nat with (S j) by lia.
    rewrite !slices_node by lia. by rewrite slice_at_lookup_S, Hs.
Qed.

(** X2. The lattices of [base_instr] and [internal_value_of_options] for
    [n] periods are the first [n + 1] slices of the lattices for any
    larger number of periods.  This holds for every arithmetic. *)
Theorem more_periods_extend (F : Type) (A : Arith F) (n m : Z)
    (bp investment vol : F) :
  (0 ≤ n ≤ m)%Z →
  ∃ P V : lattice F,
    base_instr m bp vol = Some P ∧
    internal_value_of_options m bp investment vol = Some V ∧
    base_instr n bp vol = Some (take (S (Z.to_nat n)) P) ∧
    internal_value_of_options n bp investment vol
    = Some (take (S (Z.to_nat n)) V).
Proof.
  intros Hnm. eexists _, _.
  split; [apply build_slices|].
  split; [apply internal_value_slices; lia|].
  assert (take (S (Z.to_nat n))
            (slices (fexp vol) (fexp (fneg vol)) bp (Z.to_nat m))
          = slices (fexp vol) (fexp (fneg vol)) bp (Z.to_nat n)) as Htake.
  { unfold slices. rewrite <- fmap_take, take_seq.
    by replace (S (Z.to_nat n) `min` S (Z.to_nat m))%nat
      with (S (Z.to_nat n)) by lia. }
  split.
  - unfold base_instr. by rewrite build_slices, Htake.
  - rewrite internal_value_slices by lia. unfold payoffs.
    by rewrite <- fmap_take, Htake.
Qed.

Lemma more_periods_extend_witness :
  ∃ P V : lattice R,
    base_instr 3 90 (3 / 10) = Some P ∧
    internal_value_of_options 3 90 100 (3 / 10) = Some V ∧
    base_instr 2 90 (3 / 10) = Some (take (S (Z.to_nat 2)) P) ∧
    internal_value_of_options 2 90 100 (3 / 10)
    = Some (take (S (Z.to_nat 2)) V).
Proof. apply (more_periods_extend R R_arith 2 3 90 100 (3 / 10)). lia. Defined.

(** X3. [print_tree] raises (the [IndexError] of [tree[-1]]) exactly on
    the empty tree; on every other tree, ragged or not, it prints. *)
Theorem print_tree_fails_only_on_empty (F : Type) (A : Arith F)
    (fmt : F → string) (tree : lattice F) :
  print_tree fmt tree = None ↔ tree = [].
Proof.
  split; [|by intros ->].
  intros Hnone. destruct (last tree) as [bottom|] eqn:Hlast.
  - by rewrite (print_tree_table fmt tree bottom Hlast) in Hnone.
  - by apply last_None.
Qed.

(** X4. For a lattice with slices [0..n], slice [i] of [i + 1] nodes,
    [print_tree] prints a table of [n + 1] rows of [n + 1] cells, each
    cell ended by a tab and each row by a newline; the cell in row [r]
    and column [i] is the formatted node [r] of slice [i] when [r <= i]
    and six spaces otherwise. *)
Theorem print_tree_triangular (F : Type) (A : Arith F) (fmt : F → string)
    (n : nat) (tree : lattice F) :
  triangular n tree →
  ∃ table : list (list string),
    print_tree fmt tree = Some (render table) ∧
    length table = S n ∧
    ∀ r i : nat, (r ≤ n)%nat → (i ≤ n)%nat →
      ∃ cells : list string,
        table !! r = Some cells ∧ length cells = S n ∧
        if decide (r ≤ i)%nat
        then ∃ v, node tree i r = Some v ∧ cells !! i = Some (fmt v)
        else cells !! i = Some blank.
Proof.
  intros Htri. destruct (triangular_last n tree Htri) as (bottom & Hb & Hlen).
  eexists. split; [by apply print_tree_table|]. rewrite Hlen.
  split; [by rewrite length_fmap, length_seq|].
  intros r i Hr Hi. exists (table_row fmt tree r).
  rewrite list_lookup_fmap, lookup_seq_lt by lia. simpl.
  split; [done|]. unfold table_row. rewrite length_fmap.
  split; [by destruct Htri|]. rewrite list_lookup_fmap.
  destruct (triangular_node n tree i r Htri Hi) as [Hin Hout].
  unfold node in *. destruct (tree !! i) as [x|] eqn:Hx.
  - simpl in *. destruct (decide (r ≤ i)%nat) as [Hle|Hgt].
    + destruct (Hin Hle) as [v Hv]. exists v. by rewrite Hv.
    + by rewrite Hout by lia.
  - destruct Htri as [Hl _]. apply lookup_ge_None_1 in Hx. lia.
Qed.

Lemma print_tree_triangular_witness :
  ∃ table : list (list string),
    print_tree (λ _ : R, "000.00") [[0]; [0; 0]] = Some (render table) ∧
    length table = 2%nat ∧
    ∀ r i : nat, (r ≤ 1)%nat → (i ≤ 1)%nat →
      ∃ cells : list string,
        table !! r = Some cells ∧ length cells = 2%nat ∧
        if decide (r ≤ i)%nat
        then ∃ v, node [[0]; [0; 0]] i r = Some v ∧
                  cells !! i = Some "000.00"
        else cells !! i = Some blank.
Proof.
  apply (print_tree_triangular R R_arith (λ _ : R, "000.00") 1
           [[0]; [0; 0]]).
  split; [done|]. intros [|[|i]] row; simpl; intros [= <-]; done.
Defined.

Lemma singleton_triangular {F : Type} (x : F) : triangular 0 [[x]].
Proof. split; [done|]. by intros [|i] row [= <-]. Qed.

(** Whatever the period count, each stage returns a triangular lattice
    for [max periods 0] periods. *)
Lemma stages_return (F : Type) (A : Arith F) (periods : Z)
    (bp rf investment decline vol : F) :
  (∃ L, base_instr periods bp vol = Some L ∧
        triangular (Z.to_nat periods) L) ∧
  (∃ L, internal_value_of_options periods bp investment vol = Some L ∧
        triangular (Z.to_nat periods) L) ∧
  (∃ L, delay_option_value periods bp rf investment decline vol = Some L ∧
        triangular (Z.to_nat periods) L).
Proof.
  split; [eexists; split; [apply build_slices | apply slices_triangular]|].
  destruct (Z_lt_le_dec periods 0) as [Hneg|Hpos].
  - replace (Z.to_nat periods) with 0%nat by lia.
    split; eexists;
      (split; [by (apply internal_value_negative
                   || apply delay_option_value_negative)
              | apply singleton_triangular]).
  - split; eexists.
    + split; [by apply internal_value_slices|].
      apply payoffs_triangular, slices_triangular.
    + split; [by apply delay_option_value_backward|].
      apply backward_triangular, payoffs_triangular, slices_triangular.
Qed.

Lemma print_tree_square (F : Type) (A : Arith F) (fmt : F → string)
    (n : nat) (tree : lattice F) :
  triangular n tree →
  ∃ table : list (list string),
    print_tree fmt tree = Some (render table) ∧
    length table = S n ∧
    ∀ cells, cells ∈ table → length cells = S n.
Proof.
  intros Htri. destruct (triangular_last n tree Htri) as (bottom & Hb & Hlen).
  eexists. split; [by apply print_tree_table|].
  split; [by rewrite length_fmap, length_seq|].
  intros cells (r & -> & _)%list_elem_of_fmap.
  unfold table_row. rewrite length_fmap. by destruct Htri.
Qed.

(** X5. If [<n>], [<income>] and [<volatility>] convert and so do the
    further arguments the chosen command reads, [run] raises nothing and
    prints a table of [max n 0 + 1] rows of [max n 0 + 1] cells; a
    negative [<n>] is accepted and prints a single cell. *)
Theorem run_prints_table (F : Type) (A : Arith F) (fmt : F → string)
    (py_int : string → option Z) (py_float : string → option F)
    (a : arguments) (n : Z) (price vol : F) :
  convert py_int (arg_n a) = Some n →
  convert py_float (arg_income a) = Some price →
  convert py_float (arg_volatility a) = Some vol →
  cmd_base_instrument a = true
  ∨ (cmd_internal_value a = true ∧ is_Some (convert py_float (arg_inv a)))
  ∨ (cmd_delay_option_value a = true ∧
     is_Some (convert py_float (arg_rf a)) ∧
     is_Some (convert py_float (arg_inv a)) ∧
     is_Some (convert py_float (arg_decline a))) →
  ∃ table : list (list string),
    run fmt py_int py_float a = Some (render table) ∧
    length table = S (Z.to_nat n) ∧
    ∀ cells, cells ∈ table → length cells = S (Z.to_nat n).
Proof.
  intros Hn Hprice Hvol Hcmd. unfold run.
  rewrite Hn, Hprice, Hvol. cbn [mbind option_bind].
  assert (∀ rf inv decline,
            (∃ L, base_instr n price vol = Some L ∧
                  triangular (Z.to_nat n) L) ∧
            (∃ L, internal_value_of_options n price inv vol = Some L ∧
                  triangular (Z.to_nat n) L) ∧
            (∃ L, delay_option_value n price rf inv decline vol = Some L ∧
                  triangular (Z.to_nat n) L)) as Hst
    by (intros; apply stages_return).
  destruct (cmd_base_instrument a) eqn:Hb.
  { destruct (Hst price price price) as ((L & -> & HL) & _).
    cbn [mbind option_bind]. by apply print_tree_square. }
  destruct (cmd_internal_value a) eqn:Hi.
  { assert (is_Some (convert py_float (arg_inv a))) as [inv ->]
      by (destruct Hcmd as [?|[[_ ?]|(_ & _ & ? & _)]]; done).
    cbn [mbind option_bind].
    destruct (Hst price inv price) as (_ & (L & -> & HL) & _).
    cbn [mbind option_bind]. by apply print_tree_square. }
  destruct Hcmd as [?|[[? _]|(-> & [rf ->] & [inv ->] & [decline ->])]];
    [done..|].
  cbn [mbind option_bind].
  destruct (Hst rf inv decline) as (_ & _ & (L & -> & HL)).
  cbn [mbind option_bind]. by apply print_tree_square.
Qed.

(** X6. With the [internal_value] command, [run] never reads [<rf>] and
    [<decline>]: whatever their text, a number or not, the output is the
    same. *)
Theorem run_internal_value_ignores_rf_decline (F : Type) (A : Arith F)
    (fmt : F → string) (py_int : string → option Z)
    (py_float : string → option F) (a : arguments)
    (rf decline : option string) :
  cmd_base_instrument a = false → cmd_internal_value a = true →
  run fmt py_int py_float
    {| cmd_base_instrument := cmd_base_instrument a;
       cmd_internal_value := cmd_internal_value a;
       cmd_delay_option_value := cmd_delay_option_value a;
       arg_n := arg_n a; arg_income := arg_income a;
       arg_volatility := arg_volatility a;
       arg_rf := rf; arg_inv := arg_inv a; arg_decline := decline |}
  = run fmt py_int py_float a.
Proof. intros Hb Hi. unfold run. simpl. by rewrite Hb, Hi. Qed.

Lemma run_prints_table_witness :
  ∃ table : list (list string),
    run (λ _ : R, "000.00") (λ _, Some 2%Z) (λ _, Some 1)
      {| cmd_base_instrument := true; cmd_internal_value := false;
         cmd_delay_option_value := false;
         arg_n := Some "2"; arg_income := Some "1";
         arg_volatility := Some "1";
         arg_rf := None; arg_inv := None; arg_decline := None |}
    = Some (render table) ∧
    length table = S (Z.to_nat 2) ∧
    ∀ cells, cells ∈ table → length cells = S (Z.to_nat 2).
Proof.
  apply (run_prints_table R R_arith (λ _ : R, "000.00") (λ _, Some 2%Z)
           (λ _, Some 1) _ 2%Z 1 1); [reflexivity..|].
  left. reflexivity.
Defined.

Lemma run_internal_value_ignores_rf_decline_witness :
  run (λ _ : R, "000.00") (λ _, Some 2%Z) (λ _, Some 1)
    {| cmd_base_instrument := false; cmd_internal_value := true;
       cmd_delay_option_value := false;
       arg_n := Some "2"; arg_income := Some "1";
       arg_volatility := Some "1";
       arg_rf := Some "abc"; arg_inv := Some "1"; arg_decline := None |}
  = run (λ _ : R, "000.00") (λ _, Some 2%Z) (λ _, Some 1)
      {| cmd_base_instrument := false; cmd_internal_value := true;
         cmd_delay_option_value := false;
         arg_n := Some "2"; arg_income := Some "1";
         arg_volatility := Some "1";
         arg_rf := Some "0.06"; arg_inv := Some "1";
         arg_decline := Some "0.05" |}.
Proof.
  apply (run_internal_value_ignores_rf_decline R R_arith (λ _ : R, "000.00")
           (λ _, Some 2%Z) (λ _, Some 1)
           {| cmd_base_instrument := false; cmd_internal_value := true;
              cmd_delay_option_value := false;
              arg_n := Some "2"; arg_income := Some "1";
              arg_volatility := Some "1";
              arg_rf := Some "0.06"; arg_inv := Some "1";
              arg_decline := Some "0.05" |} (Some "abc") None);
    reflexivity.
Defined.

(** X15. With volatility 0 every node of the lattice returned by
    [base_instr] is the base price. *)
Theorem base_instr_zero_volatility (periods : Z) (bp : R) :
  ∃ L : lattice R,
    base_instr periods bp 0 = Some L ∧
    ∀ (i j : nat) (s : R), node L i j = Some s → s = bp.
Proof.
  eexists. split; [apply base_instr_slices|]. intros i j s Hs.
  destruct (triangular_node_inv _ _ i j s
              (slices_triangular (exp 0) (exp (- 0)) bp _) Hs) as [Hi Hj].
  rewrite price_node in Hs by done. simplify_eq.
  rewrite Ropp_0, exp_0, !pow1. ring.
Qed.

End further_properties.
